(** * LLaMaTokenizer: the SentencePiece adapter of
      [src/transformers/models/llama/tokenization_llama.py]

    The adapter keeps a SentencePiece processor, two small dictionaries for
    the three special tokens (string to id and back), and forwards every
    conversion to the processor unless one of the dictionaries answers first.

    The development is a shallow embedding: Python dictionaries are
    insertion-ordered association lists, Python integers are [Z], raised
    exceptions are the [Raise] branch of [Result], and the methods of the
    class run in a state-and-exception monad over the object ([self]). *)

From Stdlib Require Import ZArith String List Lia.
From stdpp Require Import base decidable option list numbers strings.

Open Scope Z_scope.
Open Scope string_scope.
Open Scope list_scope.

(** ** Exceptions and results *)

Inductive PyExn : Type :=
| AssertionError
| IndexError
| OSError
| TypeError.

Inductive Result (A : Type) : Type :=
| Ok (a : A)
| Raise (e : PyExn).

Arguments Ok {A} a.
Arguments Raise {A} e.

Definition rbind {A B} (r : Result A) (f : A -> Result B) : Result B :=
  match r with
  | Ok a => f a
  | Raise e => Raise e
  end.

(** Python's [assert cond]. *)
Definition py_assert (cond : bool) : Result unit :=
  if cond then Ok tt else Raise AssertionError.

(** [for x in xs: body x], stopping at the first exception. *)
Fixpoint rfor {A} (xs : list A) (body : A -> Result unit) : Result unit :=
  match xs with
  | [] => Ok tt
  | x :: xs' => rbind (body x) (fun _ => rfor xs' body)
  end.

(** ** Python dictionaries

    A [dict] keeps its keys in insertion order; assigning to a key that is
    already there replaces the value and keeps the position. *)

Module PyDict.
Section Dict.
Context {K V : Type} `{EqDecision K}.

Definition dict : Type := list (K * V).

Definition empty : dict := [].

(** [d[k]] guarded by [k in d]: [None] when the key is absent. *)
Fixpoint get (d : dict) (k : K) : option V :=
  match d with
  | [] => None
  | (k', v) :: d' => if decide (k' = k) then Some v else get d' k
  end.

(** [d[k] = v]. *)
Fixpoint set (k : K) (v : V) (d : dict) : dict :=
  match d with
  | [] => [(k, v)]
  | (k', v') :: d' =>
      if decide (k' = k) then (k', v) :: d' else (k', v') :: set k v d'
  end.

Definition len (d : dict) : Z := Z.of_nat (length d).

Definition items (d : dict) : list (K * V) := d.

Definition keys (d : dict) : list K := d.*1.

Definition values (d : dict) : list V := d.*2.
End Dict.

Arguments dict : clear implicits.

(** [{v: k for k, v in d.items()}]. *)
Definition invert {K V} `{EqDecision V} (d : dict K V) : dict V K :=
  fold_left (fun acc kv => set kv.2 kv.1 acc) (items d) empty.

End PyDict.

Import PyDict.

(** ** Keyword arguments

    The values a caller may pass on through [**kwargs]. *)

Inductive PyValue : Type :=
| PyNone
| PyBool (b : bool)
| PyInt (z : Z)
| PyStr (s : string).

(** ** The wrapped SentencePiece processor

    The engine is outside this source file; what the adapter calls of it is
    kept in a record. *)

(** Modelled from the spec: the SentencePiece engine is not part of the
    source.  Following the spec's data model, the Vocabulary is the ordered
    sequence of trained pieces, the id of a piece being its position
    (0-indexed, dense); the three special ids are what the loaded model
    reports; the Segmenter's search over a text is kept abstract as the
    function [segment]. *)
Record SentencePieceProcessor : Type := {
  pieces : list string;
  bos_id : Z;
  eos_id : Z;
  unk_id : Z;
  segment : string -> list string
}.

(** Modelled from the spec: [encode(text, out_type=str)] is the Segmenter.
    Its EmptyInput rule is that segmenting the empty string returns an empty
    Segmentation, not an error; any other text goes to the search. *)
Definition encode (sp : SentencePieceProcessor) (text : string) : list string :=
  if decide (text = "") then [] else segment sp text.

Definition get_piece_size (sp : SentencePieceProcessor) : Z :=
  Z.of_nat (length (pieces sp)).

(** Modelled from the spec: the Vocabulary Store's [lookup_id], which
    answers "not found" ([None]) for a string that is no trained piece. *)
Definition lookup_id (sp : SentencePieceProcessor) (piece : string) : option Z :=
  match list_find (fun p => p = piece) (pieces sp) with
  | Some (i, _) => Some (Z.of_nat i)
  | None => None
  end.

(** Modelled from the spec: the Vocabulary Store's [lookup_piece]. *)
Definition lookup_piece (sp : SentencePieceProcessor) (id : Z) : option string :=
  if bool_decide (0 <= id) then pieces sp !! Z.to_nat id else None.

(** Modelled from the spec: [piece_to_id] is [lookup_id] with "not found"
    translated to the unknown-token id. *)
Definition piece_to_id (sp : SentencePieceProcessor) (piece : string) : Z :=
  default (unk_id sp) (lookup_id sp piece).

(** Modelled from the spec: [IdToPiece] is [lookup_piece]; an id outside
    [0, get_piece_size) raises. *)
Definition IdToPiece (sp : SentencePieceProcessor) (id : Z) : Result string :=
  match lookup_piece sp id with
  | Some p => Ok p
  | None => Raise IndexError
  end.

(** ** The tokenizer object

    [sp_model], [special_token_to_id], [special_id_to_token] and [vocab_file]
    are assigned by the constructor itself; [bos_token], [eos_token] and
    [unk_token] are the attributes the base-class constructor keeps from the
    keyword arguments it is given. *)

Record LLaMaTokenizer : Type := {
  sp_model : SentencePieceProcessor;
  special_token_to_id : dict string Z;
  special_id_to_token : dict Z string;
  vocab_file : string;
  bos_token : string;
  eos_token : string;
  unk_token : string
}.

(** *** [__init__]

    [spm] stands for [spm.SentencePieceProcessor], which loads a model file
    (or raises).  The constructor loads the file twice, at its first and at
    its last statement.

    [super_init] stands for the constructor of the base class, which is not
    part of the source: it is called with the three special strings and the
    keyword arguments of the caller, after the assertions, and may raise.
    When it returns, the object holds the three strings as [bos_token],
    [eos_token] and [unk_token]. *)

Definition special_tokens_literal (sp : SentencePieceProcessor)
    (bos_token eos_token unk_token : string) : dict string Z :=
  set unk_token (unk_id sp)
    (set eos_token (eos_id sp)
       (set bos_token (bos_id sp) empty)).

Definition check_special (sp : SentencePieceProcessor) (item : string * Z) : Result unit :=
  rbind (py_assert (bool_decide (unk_id sp = piece_to_id sp item.1))) (fun _ =>
  py_assert (bool_decide (item.2 >= 0))).

Definition __init__ (spm : string -> Result SentencePieceProcessor)
    (super_init : string -> string -> string -> dict string PyValue -> Result unit)
    (vocab_file bos_token eos_token unk_token : string)
    (kwargs : dict string PyValue) : Result LLaMaTokenizer :=
  rbind (spm vocab_file) (fun sp =>
  let special_token_to_id := special_tokens_literal sp bos_token eos_token unk_token in
  let special_id_to_token := invert special_token_to_id in
  rbind (py_assert (bool_decide (len special_id_to_token = len special_token_to_id))) (fun _ =>
  rbind (rfor (items special_token_to_id) (check_special sp)) (fun _ =>
  rbind (super_init bos_token eos_token unk_token kwargs) (fun _ =>
  rbind (spm vocab_file) (fun sp' =>
  Ok {| sp_model := sp';
        special_token_to_id := special_token_to_id;
        special_id_to_token := special_id_to_token;
        vocab_file := vocab_file;
        bos_token := bos_token;
        eos_token := eos_token;
        unk_token := unk_token |}))))).

(** *** Methods: a state-and-exception monad over [self] *)

Definition M (A : Type) : Type := LLaMaTokenizer -> Result A * LLaMaTokenizer.

Definition ret {A} (a : A) : M A := fun self => (Ok a, self).

Definition bind {A B} (m : M A) (f : A -> M B) : M B :=
  fun self =>
    match m self with
    | (Ok a, self') => f a self'
    | (Raise e, self') => (Raise e, self')
    end.

(** Reading an attribute [self.f]. *)
Definition attr {A} (f : LLaMaTokenizer -> A) : M A :=
  fun self => (Ok (f self), self).

(** A call into the processor, which may raise. *)
Definition call {A} (r : Result A) : M A := fun self => (r, self).

Notation "'do' x <- m ; k" := (bind m (fun x => k))
  (at level 10, x name, m at level 100, k at level 200).

(** The value a method returns and the object it leaves. *)
Definition eval {A} (m : M A) (self : LLaMaTokenizer) : Result A := (m self).1.
Definition exec {A} (m : M A) (self : LLaMaTokenizer) : LLaMaTokenizer := (m self).2.

Fixpoint foldM {A B} (f : B -> A -> M B) (xs : list A) (b : B) : M B :=
  match xs with
  | [] => ret b
  | x :: xs' => do b' <- f b x ; foldM f xs' b'
  end.

Definition vocab_size : M Z :=
  do sp <- attr sp_model ;
  ret (get_piece_size sp).

Definition _tokenize (text : string) : M (list string) :=
  do bos <- attr bos_token ;
  do sp <- attr sp_model ;
  ret ([bos] ++ encode sp text).

Definition _convert_token_to_id (token : string) : M Z :=
  do d <- attr special_token_to_id ;
  match get d token with
  | Some id => ret id
  | None =>
      do sp <- attr sp_model ;
      ret (piece_to_id sp token)
  end.

Definition _convert_id_to_token (index : Z) : M string :=
  do d <- attr special_id_to_token ;
  match get d index with
  | Some token => ret token
  | None =>
      do sp <- attr sp_model ;
      call (IdToPiece sp index)
  end.

(** Modelled from the spec: [convert_ids_to_tokens] is inherited from the
    host framework's base class, which is not part of the source; on a single
    id of a tokenizer without added tokens it forwards to
    [_convert_id_to_token]. *)
Definition convert_ids_to_tokens (index : Z) : M string :=
  _convert_id_to_token index.

(** [{self.convert_ids_to_tokens(i): i for i in range(self.vocab_size)}]. *)
Definition get_vocab : M (dict string Z) :=
  do n <- vocab_size ;
  foldM (fun vocab i =>
           do token <- convert_ids_to_tokens i ;
           ret (set token i vocab))
        (seqZ 0 n) empty.

(** Everything a successful construction establishes about the object. *)
Record constructed (spm : string -> Result SentencePieceProcessor)
    (vf bos eos unk : string) (t : LLaMaTokenizer) : Prop := {
  ctd_loaded : spm vf = Ok (sp_model t);
  ctd_token_to_id :
    special_token_to_id t = special_tokens_literal (sp_model t) bos eos unk;
  ctd_id_to_token : special_id_to_token t = invert (special_token_to_id t);
  ctd_same_length :
    length (special_id_to_token t) = length (special_token_to_id t);
  ctd_checked :
    Forall (fun item => piece_to_id (sp_model t) item.1 = unk_id (sp_model t)
                        /\ 0 <= item.2)
           (special_token_to_id t);
  ctd_vocab_file : vocab_file t = vf;
  ctd_bos : bos_token t = bos;
  ctd_eos : eos_token t = eos;
  ctd_unk : unk_token t = unk
}.

(** A computation is read-only when it hands back the object it was given. *)
Definition read_only {A} (m : M A) : Prop := forall self, exec m self = self.

(** ** Sample models used to run the definitions *)

(** A toy segmenter: one piece per character. *)
Fixpoint split_chars (text : string) : list string :=
  match text with
  | EmptyString => []
  | String c rest => String c EmptyString :: split_chars rest
  end.

(** A model with bos, eos and unk enabled. *)
Definition toy_model : SentencePieceProcessor :=
  {| pieces := ["<unk>"; "<s>"; "</s>"; "a"; "b"; "ab"];
     bos_id := 1;
     eos_id := 2;
     unk_id := 0;
     segment := split_chars |}.

(** A model trained without a begin-sequence piece: [bos_id()] is [-1]. *)
Definition toy_model_no_bos : SentencePieceProcessor :=
  {| pieces := ["<unk>"; "</s>"; "a"; "b"];
     bos_id := -1;
     eos_id := 1;
     unk_id := 0;
     segment := split_chars |}.

(** A piece list that repeats a string; the vocabulary's data model rules
    it out, and the engine refuses to load such a file. *)
Definition toy_model_repeated : SentencePieceProcessor :=
  {| pieces := ["<unk>"; "<s>"; "</s>"; "a"; "a"];
     bos_id := 1;
     eos_id := 2;
     unk_id := 0;
     segment := split_chars |}.

Definition toy_spm (vocab_file : string) : Result SentencePieceProcessor :=
  if decide (vocab_file = "tokenizer.model") then Ok toy_model
  else if decide (vocab_file = "no_bos.model") then Ok toy_model_no_bos
  else Raise OSError.

(** A base-class constructor that accepts every call. *)
Definition toy_super_init (bos eos unk : string) (kwargs : dict string PyValue)
    : Result unit :=
  Ok tt.

(** A base-class constructor that refuses a [model_max_length] that is not
    an integer. *)
Definition strict_super_init (bos eos unk : string) (kwargs : dict string PyValue)
    : Result unit :=
  match get kwargs "model_max_length" with
  | Some (PyInt _) | None => Ok tt
  | Some _ => Raise TypeError
  end.

Definition toy_tokenizer : LLaMaTokenizer :=
  {| sp_model := toy_model;
     special_token_to_id := [("<bos>", 1); ("<eos>", 2); ("<unk>", 0)];
     special_id_to_token := [(1, "<bos>"); (2, "<eos>"); (0, "<unk>")];
     vocab_file := "tokenizer.model";
     bos_token := "<bos>";
     eos_token := "<eos>";
     unk_token := "<unk>" |}.

(** The object built over the model without begin-sequence piece when the
    caller passes one string for both the bos and the eos role. *)
Definition toy_tokenizer_shared : LLaMaTokenizer :=
  {| sp_model := toy_model_no_bos;
     special_token_to_id := [("<s>", 1); ("<unk>", 0)];
     special_id_to_token := [(1, "<s>"); (0, "<unk>")];
     vocab_file := "no_bos.model";
     bos_token := "<s>";
     eos_token := "<s>";
     unk_token := "<unk>" |}.


(** * Facts *)

(** ** Dictionaries *)

Section DictFacts.
Context {K V : Type} `{EqDecision K}.
Implicit Types (d : dict K V) (k : K) (v : V).

Lemma get_None d k : get d k = None <-> k ∉ keys d.
Proof.
  unfold keys. induction d as [|[k' v'] d IH]; simpl.
  - split; [intros _; apply not_elem_of_nil | done].
  - rewrite not_elem_of_cons. destruct (decide (k' = k)) as [->|Hne].
    + split; [done | intros [? _]; done].
    + rewrite IH. split; [intros ?; split; [congruence | done] | tauto].
Qed.

Lemma get_Some_elem d k v : get d k = Some v -> (k, v) ∈ d.
Proof.
  induction d as [|[k' v'] d IH]; simpl; [done |].
  destruct (decide (k' = k)) as [->|Hne].
  - intros [= ->]. apply list_elem_of_here.
  - intros Hg. apply list_elem_of_further. auto.
Qed.

Lemma elem_get_Some d k v : NoDup (keys d) -> (k, v) ∈ d -> get d k = Some v.
Proof.
  unfold keys. induction d as [|[k' v'] d IH]; simpl.
  - intros _ Hin. by apply elem_of_nil in Hin.
  - rewrite NoDup_cons. intros [Hnotin Hnd] Hin.
    apply elem_of_cons in Hin as [[= -> ->]|Hin].
    + by rewrite decide_True.
    + destruct (decide (k' = k)) as [->|Hne]; [|by apply IH].
      exfalso. apply Hnotin. apply list_elem_of_fmap. by exists (k, v).
Qed.

Lemma get_set d k v k' :
  get (set k v d) k' = if decide (k = k') then Some v else get d k'.
Proof.
  induction d as [|[k0 v0] d IH]; simpl.
  - done.
  - destruct (decide (k0 = k)) as [->|Hne]; simpl.
    + by destruct (decide (k = k')).
    + rewrite IH. destruct (decide (k0 = k')) as [->|?]; [|done].
      by rewrite decide_False by congruence.
Qed.

Lemma set_fresh d k v : k ∉ keys d -> set k v d = d ++ [(k, v)].
Proof.
  unfold keys. induction d as [|[k0 v0] d IH]; simpl; [done |].
  rewrite not_elem_of_cons. intros [Hne Hnotin].
  rewrite decide_False by congruence. by rewrite IH.
Qed.

Lemma length_set_present d k v : k ∈ keys d -> length (set k v d) = length d.
Proof.
  unfold keys. induction d as [|[k0 v0] d IH]; simpl.
  - intros Hin. by apply elem_of_nil in Hin.
  - intros Hin. destruct (decide (k0 = k)) as [->|Hne]; simpl; [done |].
    apply elem_of_cons in Hin as [?|Hin]; [congruence |]. by rewrite IH.
Qed.

Lemma keys_set d k v : forall k', k' ∈ keys (set k v d) <-> k' = k \/ k' ∈ keys d.
Proof.
  unfold keys. intros k'. induction d as [|[k0 v0] d IH]; simpl.
  - rewrite list_elem_of_singleton. split; [auto | intros [?|Hin]; [done|]].
    by apply elem_of_nil in Hin.
  - destruct (decide (k0 = k)) as [->|Hne]; simpl; rewrite !elem_of_cons.
    + tauto.
    + rewrite IH. tauto.
Qed.

Lemma NoDup_keys_set d k v : NoDup (keys d) -> NoDup (keys (set k v d)).
Proof.
  induction d as [|[k0 v0] d IH]; simpl.
  - intros _. apply NoDup_singleton.
  - unfold keys in *. simpl. rewrite NoDup_cons. intros [Hnotin Hnd].
    destruct (decide (k0 = k)) as [->|Hne]; simpl; rewrite NoDup_cons.
    + done.
    + split; [|auto]. intros Hin. apply (keys_set d k v k0) in Hin.
      destruct Hin; [congruence | done].
Qed.
End DictFacts.

(** ** Inverting a dictionary

    The inverted dictionary can only be as long as the original one when no
    value occurs twice; it is then the original with every item swapped. *)

Section InvertFacts.
Context {K V : Type} `{EqDecision K} `{EqDecision V}.
Implicit Types (d : dict K V) (acc : dict V K).

Local Abbreviation step := (fun (acc : dict V K) (kv : K * V) => set kv.2 kv.1 acc).

Lemma length_set_le acc v k : (length (set v k acc) <= S (length acc))%nat.
Proof.
  induction acc as [|[v0 k0] acc IH]; simpl; [lia |].
  destruct (decide (v0 = v)); simpl; lia.
Qed.

Lemma length_set_grows acc v k :
  length (set v k acc) = S (length acc) -> v ∉ keys acc.
Proof.
  intros Hlen Hin. apply (length_set_present acc v k) in Hin. lia.
Qed.

Lemma length_fold_invert_le d acc :
  (length (fold_left step d acc) <= length acc + length d)%nat.
Proof.
  revert acc. induction d as [|kv d IH]; intros acc; simpl; [lia |].
  specialize (IH (set kv.2 kv.1 acc)).
  pose proof (length_set_le acc kv.2 kv.1). lia.
Qed.

Lemma fold_invert_full d acc :
  length (fold_left step d acc) = (length acc + length d)%nat ->
  fold_left step d acc = acc ++ (prod_swap <$> d)
  /\ (forall kv, kv ∈ d -> kv.2 ∉ keys acc)
  /\ NoDup (values d).
Proof.
  revert acc. induction d as [|kv d IH]; intros acc; simpl.
  - intros _. rewrite app_nil_r. split; [done |]. split; [|apply NoDup_nil_2].
    intros kv Hin. by apply elem_of_nil in Hin.
  - intros Hlen.
    pose proof (length_fold_invert_le d (set kv.2 kv.1 acc)) as Hle.
    pose proof (length_set_le acc kv.2 kv.1) as Hle'.
    assert (length (set kv.2 kv.1 acc) = S (length acc)) as Hgrow by lia.
    pose proof (length_set_grows _ _ _ Hgrow) as Hfresh.
    rewrite (set_fresh _ _ _ Hfresh) in *.
    destruct (IH (acc ++ [(kv.2, kv.1)])) as (Heq & Hdisj & Hnd).
    { rewrite Hlen, length_app. simpl. lia. }
    split; [rewrite Heq, <- app_assoc; done |].
    assert (forall kv', kv' ∈ d -> (kv'.2 ∉ keys acc) /\ kv'.2 <> kv.2) as Hboth.
    { intros kv' Hin. specialize (Hdisj kv' Hin). unfold keys in *.
      rewrite fmap_app, not_elem_of_app in Hdisj. destruct Hdisj as [? Hne].
      split; [done |]. intros Heq'. apply Hne. simpl. rewrite Heq'. apply list_elem_of_here. }
    split.
    + intros kv' [->|Hin]%elem_of_cons; [done | by apply Hboth].
    + unfold values in *. simpl. apply NoDup_cons. split; [|done].
      intros (kv' & Heq' & Hin)%list_elem_of_fmap.
      destruct (Hboth kv' Hin) as [_ Hne]. congruence.
Qed.

Lemma invert_full d :
  length (invert d) = length d ->
  invert d = prod_swap <$> d /\ NoDup (values d).
Proof.
  intros Hlen. destruct (fold_invert_full d empty) as (Heq & _ & Hnd); [done |].
  split; done.
Qed.

Lemma get_invert d v k :
  NoDup (keys d) -> length (invert d) = length d ->
  get (invert d) v = Some k <-> get d k = Some v.
Proof.
  intros Hkeys Hlen. destruct (invert_full d Hlen) as [-> Hvals].
  assert (keys (prod_swap <$> d) = values d) as Hk.
  { unfold keys, values. rewrite <- list_fmap_compose. done. }
  split.
  - intros Hg%get_Some_elem. apply list_elem_of_fmap in Hg as ([k' v'] & [= -> ->] & Hin).
    by apply elem_get_Some.
  - intros Hg%get_Some_elem. apply elem_get_Some; [by rewrite Hk |].
    apply list_elem_of_fmap. by exists (k, v).
Qed.
End InvertFacts.

(** ** The method monad *)

Lemma read_only_ret {A} (a : A) : read_only (ret a).
Proof. done. Qed.

Lemma read_only_attr {A} (f : LLaMaTokenizer -> A) : read_only (attr f).
Proof. done. Qed.

Lemma read_only_call {A} (r : Result A) : read_only (call r).
Proof. done. Qed.

Lemma read_only_bind {A B} (m : M A) (f : A -> M B) :
  read_only m -> (forall a, read_only (f a)) -> read_only (bind m f).
Proof.
  intros Hm Hf self. specialize (Hm self). unfold exec, bind in *.
  destruct (m self) as [[a|e] self']; simpl in *; subst; [apply Hf | done].
Qed.

Lemma read_only_foldM {A B} (f : B -> A -> M B) (xs : list A) (b : B) :
  (forall b x, read_only (f b x)) -> read_only (foldM f xs b).
Proof.
  intros Hf. revert b. induction xs as [|x xs IH]; intros b; simpl.
  - apply read_only_ret.
  - apply read_only_bind; [apply Hf | apply IH].
Qed.

Create HintDb read_only.
#[export] Hint Resolve read_only_ret read_only_attr read_only_call : read_only.
#[export] Hint Resolve read_only_bind read_only_foldM : read_only.

(** Methods that branch on a dictionary lookup: case on the scrutinee, then
    let the hints finish. *)
Ltac solve_read_only :=
  repeat (intros; first
    [ progress auto with read_only
    | apply read_only_bind
    | match goal with |- read_only (match ?x with _ => _ end) => destruct x end ]).

Lemma read_only_vocab_size : read_only vocab_size.
Proof. unfold vocab_size. auto with read_only. Qed.

Lemma read_only_tokenize text : read_only (_tokenize text).
Proof. unfold _tokenize. auto with read_only. Qed.

Lemma read_only_convert_token_to_id token : read_only (_convert_token_to_id token).
Proof. unfold _convert_token_to_id. solve_read_only. Qed.

Lemma read_only_convert_id_to_token index : read_only (_convert_id_to_token index).
Proof. unfold _convert_id_to_token. solve_read_only. Qed.

Lemma read_only_get_vocab : read_only get_vocab.
Proof.
  unfold get_vocab, convert_ids_to_tokens.
  apply read_only_bind; [apply read_only_vocab_size |].
  intros n. apply read_only_foldM. intros vocab i.
  apply read_only_bind; [apply read_only_convert_id_to_token | solve_read_only].
Qed.

(** What each conversion returns, as a plain function of the object. *)

Lemma run_convert_token_to_id token self :
  _convert_token_to_id token self =
  (Ok (default (piece_to_id (sp_model self) token)
               (get (special_token_to_id self) token)), self).
Proof.
  unfold _convert_token_to_id, bind, attr. simpl.
  by destruct (get (special_token_to_id self) token).
Qed.

Lemma run_convert_id_to_token index self :
  _convert_id_to_token index self =
  (match get (special_id_to_token self) index with
   | Some token => Ok token
   | None => IdToPiece (sp_model self) index
   end, self).
Proof.
  unfold _convert_id_to_token, bind, attr. simpl.
  by destruct (get (special_id_to_token self) index).
Qed.

Lemma run_tokenize text self :
  _tokenize text self = (Ok (bos_token self :: encode (sp_model self) text), self).
Proof. done. Qed.

(** ** The constructor *)

Lemma py_assert_Ok cond : py_assert cond = Ok tt <-> cond = true.
Proof. destruct cond; simpl; split; congruence. Qed.

Lemma py_assert_Raise cond e : py_assert cond = Raise e -> e = AssertionError.
Proof. destruct cond; simpl; congruence. Qed.

Lemma rfor_Ok {A} (xs : list A) (body : A -> Result unit) :
  rfor xs body = Ok tt <-> Forall (fun x => body x = Ok tt) xs.
Proof.
  induction xs as [|x xs IH]; simpl.
  - split; [intros _; apply Forall_nil_2 | done].
  - rewrite Forall_cons, <- IH. destruct (body x) as [[]|e]; simpl; [tauto |].
    split; [done | intros [? _]; done].
Qed.

Lemma rfor_Raise {A} (xs : list A) (body : A -> Result unit) e :
  (forall x e', body x = Raise e' -> e' = e) ->
  forall e', rfor xs body = Raise e' -> e' = e.
Proof.
  intros Hbody e'. induction xs as [|x xs IH]; simpl; [done |].
  destruct (body x) as [[]|e0] eqn:Hx; simpl; [done |].
  intros [= <-]. by apply (Hbody x).
Qed.

Lemma check_special_Ok sp item :
  check_special sp item = Ok tt <->
  piece_to_id sp item.1 = unk_id sp /\ 0 <= item.2.
Proof.
  unfold check_special.
  destruct (decide (unk_id sp = piece_to_id sp item.1)) as [Heq|Hne].
  - rewrite (bool_decide_eq_true_2 _ Heq). simpl. rewrite py_assert_Ok, bool_decide_eq_true.
    split; [intros ?; split; [done | lia] | intros [_ ?]; lia].
  - rewrite (bool_decide_eq_false_2 _ Hne). simpl. split; [done | intros [? _]; congruence].
Qed.

Lemma check_special_Raise sp item e :
  check_special sp item = Raise e -> e = AssertionError.
Proof.
  unfold check_special.
  destruct (bool_decide (unk_id sp = piece_to_id sp item.1)); simpl.
  - apply py_assert_Raise.
  - congruence.
Qed.

(** The dictionary literal of the constructor. *)

Lemma NoDup_keys_literal sp bos eos unk :
  NoDup (keys (special_tokens_literal sp bos eos unk)).
Proof.
  unfold special_tokens_literal. do 3 apply NoDup_keys_set. apply NoDup_nil_2.
Qed.

Lemma keys_literal sp bos eos unk s :
  s ∈ keys (special_tokens_literal sp bos eos unk) <-> s = bos \/ s = eos \/ s = unk.
Proof.
  unfold special_tokens_literal. rewrite !keys_set. unfold keys, empty. simpl.
  rewrite elem_of_nil. tauto.
Qed.

Lemma get_literal_unk sp bos eos unk :
  get (special_tokens_literal sp bos eos unk) unk = Some (unk_id sp).
Proof. unfold special_tokens_literal. rewrite get_set. by rewrite decide_True. Qed.

Lemma literal_distinct sp bos eos unk :
  bos <> eos -> bos <> unk -> eos <> unk ->
  special_tokens_literal sp bos eos unk =
  [(bos, bos_id sp); (eos, eos_id sp); (unk, unk_id sp)].
Proof.
  intros H1 H2 H3. unfold special_tokens_literal, empty. simpl.
  rewrite (decide_False (P := bos = eos)) by done. simpl.
  rewrite (decide_False (P := bos = unk)) by done.
  by rewrite (decide_False (P := eos = unk)) by done.
Qed.

(** The object the constructor builds once its assertions have passed. *)
Lemma checks_constructed spm vf bos eos unk sp :
  spm vf = Ok sp ->
  py_assert (bool_decide
    (len (invert (special_tokens_literal sp bos eos unk))
     = len (special_tokens_literal sp bos eos unk))) = Ok tt ->
  rfor (items (special_tokens_literal sp bos eos unk)) (check_special sp) = Ok tt ->
  constructed spm vf bos eos unk
    {| sp_model := sp;
       special_token_to_id := special_tokens_literal sp bos eos unk;
       special_id_to_token := invert (special_tokens_literal sp bos eos unk);
       vocab_file := vf;
       bos_token := bos;
       eos_token := eos;
       unk_token := unk |}.
Proof.
  intros Hload Hlen Hfor. apply py_assert_Ok, bool_decide_eq_true in Hlen.
  apply rfor_Ok in Hfor. unfold len, items in *.
  split; simpl; try done.
  - lia.
  - eapply Forall_impl; [exact Hfor |]. intros item. apply check_special_Ok.
Qed.

Lemma init_Ok spm super_init vf bos eos unk kwargs t :
  __init__ spm super_init vf bos eos unk kwargs = Ok t ->
  constructed spm vf bos eos unk t.
Proof.
  unfold __init__. destruct (spm vf) as [sp|e] eqn:Hload; simpl; [|done].
  destruct (py_assert _) as [[]|e] eqn:Hlen; simpl; [|done].
  destruct (rfor _ _) as [[]|e] eqn:Hfor; simpl; [|done].
  destruct (super_init _ _ _ _) as [[]|e] eqn:Hsuper; simpl; [|done].
  intros [= <-]. by apply checks_constructed.
Qed.

(** A successful construction went through the base-class constructor. *)
Lemma init_Ok_super spm super_init vf bos eos unk kwargs t :
  __init__ spm super_init vf bos eos unk kwargs = Ok t ->
  super_init bos eos unk kwargs = Ok tt.
Proof.
  unfold __init__. destruct (spm vf) as [sp|e] eqn:Hload; simpl; [|done].
  destruct (py_assert _) as [[]|e] eqn:Hlen; simpl; [|done].
  destruct (rfor _ _) as [[]|e] eqn:Hfor; simpl; [|done].
  by destruct (super_init _ _ _ _) as [[]|e] eqn:Hsuper.
Qed.

(** The assertions come before the call of the base class: when they cannot
    all pass, the constructor raises [AssertionError] whatever the base class
    would do. *)
Lemma init_fails spm super_init vf bos eos unk kwargs sp :
  spm vf = Ok sp ->
  (forall t, ~ constructed spm vf bos eos unk t) ->
  __init__ spm super_init vf bos eos unk kwargs = Raise AssertionError.
Proof.
  intros Hload Hno. unfold __init__. rewrite Hload. simpl.
  destruct (py_assert _) as [[]|e] eqn:Hlen; simpl.
  - destruct (rfor _ _) as [[]|e] eqn:Hfor; simpl.
    + destruct (Hno _ (checks_constructed spm vf bos eos unk sp Hload Hlen Hfor)).
    + f_equal. eapply rfor_Raise; [|exact Hfor].
      intros item e'. apply check_special_Raise.
  - f_equal. by apply py_assert_Raise in Hlen.
Qed.

Section Constructed.
Context {spm : string -> Result SentencePieceProcessor} {vf bos eos unk : string}.
Context {t : LLaMaTokenizer} (Hc : constructed spm vf bos eos unk t).

Lemma ctd_NoDup_keys : NoDup (keys (special_token_to_id t)).
Proof. rewrite (ctd_token_to_id _ _ _ _ _ _ Hc). apply NoDup_keys_literal. Qed.

Lemma ctd_configured s :
  s ∈ keys (special_token_to_id t) <-> s = bos \/ s = eos \/ s = unk.
Proof. rewrite (ctd_token_to_id _ _ _ _ _ _ Hc). apply keys_literal. Qed.

Lemma ctd_configured_get s :
  s = bos \/ s = eos \/ s = unk -> exists i, get (special_token_to_id t) s = Some i.
Proof.
  intros Hs%ctd_configured. destruct (get (special_token_to_id t) s) as [i|] eqn:Hg.
  - by exists i.
  - by apply get_None in Hg.
Qed.

(** The two dictionaries are inverse to each other. *)
Lemma ctd_inverse i s :
  get (special_id_to_token t) i = Some s <-> get (special_token_to_id t) s = Some i.
Proof.
  pose proof (ctd_same_length _ _ _ _ _ _ Hc) as Hlen.
  rewrite (ctd_id_to_token _ _ _ _ _ _ Hc) in *.
  apply get_invert; [apply ctd_NoDup_keys | done].
Qed.

Lemma ctd_unk_registered :
  get (special_id_to_token t) (unk_id (sp_model t)) = Some unk.
Proof.
  apply ctd_inverse. rewrite (ctd_token_to_id _ _ _ _ _ _ Hc). apply get_literal_unk.
Qed.

Lemma ctd_special_unknown s i :
  get (special_token_to_id t) s = Some i ->
  piece_to_id (sp_model t) s = unk_id (sp_model t) /\ 0 <= i.
Proof.
  intros Hg%get_Some_elem. pose proof (ctd_checked _ _ _ _ _ _ Hc) as Hall.
  rewrite Forall_forall in Hall. apply (Hall (s, i) Hg).
Qed.
End Constructed.

(** ** The vocabulary store *)

Lemma lookup_piece_Some sp id p :
  lookup_piece sp id = Some p <-> 0 <= id /\ pieces sp !! Z.to_nat id = Some p.
Proof.
  unfold lookup_piece. destruct (decide (0 <= id)) as [H|H].
  - rewrite (bool_decide_eq_true_2 _ H). tauto.
  - rewrite (bool_decide_eq_false_2 _ H). split; [done | tauto].
Qed.

Lemma lookup_piece_in_range sp id :
  0 <= id < get_piece_size sp -> exists p, lookup_piece sp id = Some p.
Proof.
  unfold get_piece_size. intros Hr.
  destruct (lookup_lt_is_Some_2 (pieces sp) (Z.to_nat id)) as [p Hp]; [lia |].
  exists p. apply lookup_piece_Some. split; [lia | done].
Qed.

Lemma lookup_id_None sp piece : piece ∉ pieces sp -> lookup_id sp piece = None.
Proof.
  intros Hnotin. unfold lookup_id.
  destruct (list_find _ _) as [[i p]|] eqn:Hf; [|done].
  apply list_find_Some in Hf as (Hi & -> & _).
  exfalso. apply Hnotin. by eapply list_elem_of_lookup_2.
Qed.

Lemma lookup_id_of_piece sp n p :
  NoDup (pieces sp) -> pieces sp !! n = Some p -> lookup_id sp p = Some (Z.of_nat n).
Proof.
  intros Hnd Hn. unfold lookup_id.
  destruct (list_find _ _) as [[i q]|] eqn:Hf.
  - apply list_find_Some in Hf as (Hi & -> & _).
    by rewrite (NoDup_lookup _ _ _ _ Hnd Hi Hn).
  - apply list_find_None in Hf. rewrite Forall_forall in Hf.
    exfalso. apply (Hf p); [by eapply list_elem_of_lookup_2 | done].
Qed.

Lemma piece_to_id_unknown sp piece :
  piece ∉ pieces sp -> piece_to_id sp piece = unk_id sp.
Proof. intros H. unfold piece_to_id. by rewrite lookup_id_None. Qed.

Lemma piece_to_id_of_piece sp id p :
  NoDup (pieces sp) -> lookup_piece sp id = Some p -> piece_to_id sp p = id.
Proof.
  intros Hnd [Hpos Hp]%lookup_piece_Some. unfold piece_to_id.
  rewrite (lookup_id_of_piece _ _ _ Hnd Hp). simpl. lia.
Qed.

(** ** Building the vocabulary dictionary *)

Lemma fold_set_fresh {K V} `{EqDecision K} (f : V -> K) (l : list V) (acc : dict K V) :
  NoDup l ->
  (forall i j, i ∈ l -> j ∈ l -> f i = f j -> i = j) ->
  (forall i, i ∈ l -> f i ∉ keys acc) ->
  fold_left (fun vocab i => set (f i) i vocab) l acc = acc ++ ((fun i => (f i, i)) <$> l).
Proof.
  revert acc. induction l as [|x l IH]; intros acc Hnd Hinj Hfresh; simpl.
  - by rewrite app_nil_r.
  - apply NoDup_cons in Hnd as [Hx Hnd].
    rewrite set_fresh by (apply Hfresh, list_elem_of_here).
    rewrite IH; [by rewrite <- app_assoc | done | |].
    + intros i j Hi Hj. apply Hinj; by apply list_elem_of_further.
    + intros i Hi. unfold keys. rewrite fmap_app, not_elem_of_app. split.
      * apply Hfresh. by apply list_elem_of_further.
      * simpl. rewrite list_elem_of_singleton. intros Heq.
        apply Hx. rewrite <- (Hinj i x); [done | by apply list_elem_of_further | apply list_elem_of_here | done].
Qed.

Lemma foldM_vocab (f : Z -> string) (l : list Z) (acc : dict string Z) self :
  (forall i, i ∈ l -> convert_ids_to_tokens i self = (Ok (f i), self)) ->
  foldM (fun vocab i => do token <- convert_ids_to_tokens i ; ret (set token i vocab))
        l acc self
  = (Ok (fold_left (fun vocab i => set (f i) i vocab) l acc), self).
Proof.
  revert acc. induction l as [|x l IH]; intros acc Hconv; simpl; [done |].
  unfold bind at 1. unfold bind at 1. rewrite Hconv by apply list_elem_of_here. simpl.
  apply IH. intros i Hi. apply Hconv. by apply list_elem_of_further.
Qed.

Lemma IdToPiece_Ok sp id p : IdToPiece sp id = Ok p <-> lookup_piece sp id = Some p.
Proof. unfold IdToPiece. destruct (lookup_piece sp id); split; congruence. Qed.

Section ConstructedVocab.
Context {spm : string -> Result SentencePieceProcessor} {vf bos eos unk : string}.
Context {t : LLaMaTokenizer} (Hc : constructed spm vf bos eos unk t).
Context (Hnd : NoDup (pieces (sp_model t))).

(** An id the registry does not know cannot carry a registered string. *)
Lemma ctd_piece_not_special i j token :
  get (special_id_to_token t) i = Some token ->
  get (special_id_to_token t) j = None ->
  IdToPiece (sp_model t) j = Ok token -> False.
Proof.
  intros Hi Hj Hp%IdToPiece_Ok.
  apply (ctd_inverse Hc) in Hi. apply (ctd_special_unknown Hc) in Hi as [Hunk _].
  rewrite (piece_to_id_of_piece _ _ _ Hnd Hp) in Hunk. subst j.
  rewrite (ctd_unk_registered Hc) in Hj. done.
Qed.

Lemma ctd_tokens_distinct i j token :
  eval (_convert_id_to_token i) t = Ok token ->
  eval (_convert_id_to_token j) t = Ok token ->
  i = j.
Proof.
  unfold eval. rewrite !run_convert_id_to_token. simpl.
  destruct (get (special_id_to_token t) i) as [a|] eqn:Hi;
    destruct (get (special_id_to_token t) j) as [b|] eqn:Hj.
  - intros [= ->] [= ->]. apply (ctd_inverse Hc) in Hi, Hj. congruence.
  - intros [= ->] Hp. destruct (ctd_piece_not_special i j token); done.
  - intros Hp [= ->]. destruct (ctd_piece_not_special j i token); done.
  - intros Hpi%IdToPiece_Ok Hpj%IdToPiece_Ok.
    rewrite <- (piece_to_id_of_piece _ _ _ Hnd Hpi).
    by rewrite <- (piece_to_id_of_piece _ _ _ Hnd Hpj).
Qed.

End ConstructedVocab.

(** Inside [0, vocab_size) the conversion never raises. *)
Lemma convert_in_range t i :
  0 <= i < get_piece_size (sp_model t) ->
  exists token, _convert_id_to_token i t = (Ok token, t).
Proof.
  intros Hr. rewrite run_convert_id_to_token.
  destruct (get (special_id_to_token t) i) as [a|]; [by exists a |].
  destruct (lookup_piece_in_range _ _ Hr) as [p Hp]. exists p.
  by apply IdToPiece_Ok in Hp as ->.
Qed.

(** ** Running the definitions *)

Example init_toy :
  __init__ toy_spm toy_super_init "tokenizer.model" "<bos>" "<eos>" "<unk>" [] = Ok toy_tokenizer.
Proof. reflexivity. Qed.

Example init_missing_file :
  __init__ toy_spm toy_super_init "missing.model" "<bos>" "<eos>" "<unk>" [] = Raise OSError.
Proof. reflexivity. Qed.

Example init_collision :
  __init__ toy_spm toy_super_init "tokenizer.model" "<bos>" "ab" "<unk>" [] = Raise AssertionError.
Proof. reflexivity. Qed.

Example init_no_bos :
  __init__ toy_spm toy_super_init "no_bos.model" "<bos>" "<eos>" "<unk>" [] = Raise AssertionError.
Proof. reflexivity. Qed.

Example init_base_class_refuses :
  __init__ toy_spm strict_super_init "tokenizer.model" "<bos>" "<eos>" "<unk>"
    [("model_max_length", PyStr "512")]
  = Raise TypeError.
Proof. reflexivity. Qed.

Example init_asserts_before_base_class :
  __init__ toy_spm strict_super_init "tokenizer.model" "<bos>" "ab" "<unk>"
    [("model_max_length", PyStr "512")]
  = Raise AssertionError.
Proof. reflexivity. Qed.

Example encode_empty : encode toy_model "" = [].
Proof. reflexivity. Qed.

Example get_vocab_toy :
  eval get_vocab toy_tokenizer
  = Ok [("<unk>", 0); ("<bos>", 1); ("<eos>", 2); ("a", 3); ("b", 4); ("ab", 5)].
Proof. reflexivity. Qed.

Example convert_out_of_range :
  eval (_convert_id_to_token 6) toy_tokenizer = Raise IndexError.
Proof. reflexivity. Qed.

(** Were a piece repeated, the later id would take the earlier one's place in
    [get_vocab]: the hypothesis on the pieces in the claim on [get_vocab]
    below is needed. *)
Example get_vocab_repeated_piece :
  (fun spm =>
     rbind (__init__ spm toy_super_init "m" "<bos>" "<eos>" "<unk>" [])
           (fun t => eval get_vocab t))
    (fun _ => Ok toy_model_repeated)
  = Ok [("<unk>", 0); ("<bos>", 1); ("<eos>", 2); ("a", 4)].
Proof. reflexivity. Qed.

(** * The claims *)

(** C1: for a tokenizer constructed with begin-sequence token [bos], and for
    every input [text], [_tokenize text] returns [bos] followed by the
    SentencePiece segmentation of [text]. *)
Theorem tokenize_prepends_bos spm super_init vf bos eos unk kwargs t text :
  __init__ spm super_init vf bos eos unk kwargs = Ok t ->
  eval (_tokenize text) t = Ok ([bos] ++ encode (sp_model t) text).
Proof.
  intros Hc%init_Ok. unfold eval. rewrite run_tokenize. simpl.
  by rewrite (ctd_bos _ _ _ _ _ _ Hc).
Qed.

Lemma tokenize_prepends_bos_witness :
  __init__ toy_spm toy_super_init "tokenizer.model" "<bos>" "<eos>" "<unk>" [] = Ok toy_tokenizer
  /\ eval (_tokenize "ab") toy_tokenizer = Ok ["<bos>"; "a"; "b"].
Proof.
  split; [reflexivity |].
  apply (tokenize_prepends_bos toy_spm toy_super_init "tokenizer.model" "<bos>" "<eos>" "<unk>" []
           toy_tokenizer "ab").
  reflexivity.
Defined.

(** C2: once the model file is loaded, a configured special-token string
    (bos, eos or unk) that the raw vocabulary resolves to an id other than the
    unknown id makes the constructor fail with [AssertionError]; a constructor
    that succeeds has found every configured string mapped to the unknown
    id. *)
Theorem init_special_strings_unknown spm super_init vf bos eos unk kwargs sp s :
  spm vf = Ok sp ->
  s = bos \/ s = eos \/ s = unk ->
  (piece_to_id sp s <> unk_id sp ->
   __init__ spm super_init vf bos eos unk kwargs = Raise AssertionError)
  /\ (forall t, __init__ spm super_init vf bos eos unk kwargs = Ok t ->
                piece_to_id (sp_model t) s = unk_id (sp_model t)
                /\ sp_model t = sp).
Proof.
  intros Hload Hs.
  assert (forall t, constructed spm vf bos eos unk t ->
                    piece_to_id (sp_model t) s = unk_id (sp_model t)
                    /\ sp_model t = sp) as Hgood.
  { intros t Hc. destruct (ctd_configured_get Hc s Hs) as [i Hi].
    split; [apply (ctd_special_unknown Hc s i Hi) |].
    pose proof (ctd_loaded _ _ _ _ _ _ Hc). congruence. }
  split.
  - intros Hbad. apply (init_fails _ _ _ _ _ _ _ sp Hload).
    intros t Hc. destruct (Hgood t Hc) as [? <-]. done.
  - intros t Hc%init_Ok. by apply Hgood.
Qed.

Lemma init_special_strings_unknown_witness :
  __init__ toy_spm toy_super_init "tokenizer.model" "<bos>" "ab" "<unk>" [] = Raise AssertionError
  /\ piece_to_id toy_model "<eos>" = unk_id toy_model.
Proof.
  split.
  - apply (proj1 (init_special_strings_unknown toy_spm toy_super_init "tokenizer.model"
                    "<bos>" "ab" "<unk>" [] toy_model "ab" eq_refl
                    (or_intror (or_introl eq_refl)))).
    vm_compute. discriminate.
  - apply (proj2 (init_special_strings_unknown toy_spm toy_super_init "tokenizer.model"
                    "<bos>" "<eos>" "<unk>" [] toy_model "<eos>" eq_refl
                    (or_intror (or_introl eq_refl))) toy_tokenizer).
    reflexivity.
Defined.

(** C3: the registry answers first in both directions: a string held by
    [special_token_to_id] converts to the id stored there, and an id held by
    [special_id_to_token] converts to the string stored there, whatever the
    SentencePiece vocabulary would have answered. *)
Theorem registry_takes_precedence t :
  (forall s i, get (special_token_to_id t) s = Some i ->
               eval (_convert_token_to_id s) t = Ok i)
  /\ (forall i s, get (special_id_to_token t) i = Some s ->
                  eval (_convert_id_to_token i) t = Ok s).
Proof.
  split.
  - intros s i Hg. unfold eval. rewrite run_convert_token_to_id. simpl. by rewrite Hg.
  - intros i s Hg. unfold eval. rewrite run_convert_id_to_token. simpl. by rewrite Hg.
Qed.

Lemma registry_takes_precedence_witness :
  (piece_to_id toy_model "<bos>" = 0
   /\ eval (_convert_token_to_id "<bos>") toy_tokenizer = Ok 1)
  /\ (IdToPiece toy_model 1 = Ok "<s>"
      /\ eval (_convert_id_to_token 1) toy_tokenizer = Ok "<bos>").
Proof.
  split; (split; [reflexivity |]).
  - apply (proj1 (registry_takes_precedence toy_tokenizer) "<bos>" 1). reflexivity.
  - apply (proj2 (registry_takes_precedence toy_tokenizer) 1 "<bos>"). reflexivity.
Defined.

(** C4: a string that is neither in the special-token registry nor a trained
    piece converts, without raising, to the unknown-token id. *)
Theorem convert_unknown_token_to_unk t s :
  s ∉ keys (special_token_to_id t) ->
  s ∉ pieces (sp_model t) ->
  eval (_convert_token_to_id s) t = Ok (unk_id (sp_model t)).
Proof.
  intros Hreg%get_None Hvoc. unfold eval. rewrite run_convert_token_to_id. simpl.
  rewrite Hreg. simpl. by rewrite piece_to_id_unknown.
Qed.

Lemma convert_unknown_token_to_unk_witness :
  eval (_convert_token_to_id "zz") toy_tokenizer = Ok 0.
Proof.
  apply (convert_unknown_token_to_unk toy_tokenizer "zz").
  - apply get_None. reflexivity.
  - intros Hin. apply list_elem_of_In in Hin. simpl in Hin.
    repeat (destruct Hin as [Hin|Hin]; [discriminate Hin |]). exact Hin.
Defined.

(** C5: [_tokenize ""] of a constructed tokenizer does not raise and
    returns the list holding just the configured begin-sequence token. *)
Theorem tokenize_empty spm super_init vf bos eos unk kwargs t :
  __init__ spm super_init vf bos eos unk kwargs = Ok t ->
  eval (_tokenize "") t = Ok [bos].
Proof.
  intros Hc%init_Ok. unfold eval. rewrite run_tokenize. simpl.
  by rewrite (ctd_bos _ _ _ _ _ _ Hc).
Qed.

Lemma tokenize_empty_witness :
  __init__ toy_spm toy_super_init "tokenizer.model" "<bos>" "<eos>" "<unk>" []
  = Ok toy_tokenizer
  /\ eval (_tokenize "") toy_tokenizer = Ok ["<bos>"].
Proof.
  split; [reflexivity |].
  apply (tokenize_empty toy_spm toy_super_init "tokenizer.model"
           "<bos>" "<eos>" "<unk>" [] toy_tokenizer).
  reflexivity.
Defined.

(** C8: [_tokenize], [_convert_token_to_id], [_convert_id_to_token],
    [get_vocab] and [vocab_size] hand back the object unchanged, so every
    field of it is the same after the call. *)
Theorem methods_leave_state_unchanged t text token index :
  exec (_tokenize text) t = t
  /\ exec (_convert_token_to_id token) t = t
  /\ exec (_convert_id_to_token index) t = t
  /\ exec get_vocab t = t
  /\ exec vocab_size t = t.
Proof.
  split_and!.
  - apply read_only_tokenize.
  - apply read_only_convert_token_to_id.
  - apply read_only_convert_id_to_token.
  - apply read_only_get_vocab.
  - apply read_only_vocab_size.
Qed.

(** C6: for a constructed tokenizer over a vocabulary without repeated
    pieces, [vocab_size] is the number of pieces, [get_vocab] returns a
    dictionary with exactly that many entries in which every id of
    [0, vocab_size) is found under the token it converts to, and no two ids
    convert to the same token. *)
Theorem get_vocab_ids_distinct_dense spm super_init vf bos eos unk kwargs t :
  __init__ spm super_init vf bos eos unk kwargs = Ok t ->
  NoDup (pieces (sp_model t)) ->
  let n := Z.of_nat (length (pieces (sp_model t))) in
  eval vocab_size t = Ok n
  /\ (exists vocab,
        eval get_vocab t = Ok vocab
        /\ len vocab = n
        /\ forall i, 0 <= i < n ->
             exists token, eval (convert_ids_to_tokens i) t = Ok token
                           /\ get vocab token = Some i)
  /\ (forall i j token,
        eval (convert_ids_to_tokens i) t = Ok token ->
        eval (convert_ids_to_tokens j) t = Ok token ->
        i = j).
Proof.
  intros Hc%init_Ok Hnd n. split; [done |]. split.
  2: { intros i j token. apply (ctd_tokens_distinct Hc Hnd). }
  set (f := fun i => match eval (convert_ids_to_tokens i) t with
                     | Ok token => token
                     | Raise _ => ""
                     end).
  assert (forall i, i ∈ seqZ 0 n -> convert_ids_to_tokens i t = (Ok (f i), t)) as Hconv.
  { intros i Hi%elem_of_seqZ. destruct (convert_in_range t i) as [token Htok].
    { unfold get_piece_size. fold n. lia. }
    unfold f, eval, convert_ids_to_tokens. by rewrite Htok. }
  assert (forall i j, i ∈ seqZ 0 n -> j ∈ seqZ 0 n -> f i = f j -> i = j) as Hinj.
  { intros i j Hi Hj Heq. apply (ctd_tokens_distinct Hc Hnd i j (f i)).
    - pose proof (Hconv i Hi) as Hr. unfold eval, convert_ids_to_tokens in *. by rewrite Hr.
    - pose proof (Hconv j Hj) as Hr. unfold eval, convert_ids_to_tokens in *.
      by rewrite Hr, Heq. }
  exists ((fun i => (f i, i)) <$> seqZ 0 n).
  assert (NoDup (keys ((fun i => (f i, i)) <$> seqZ 0 n))) as Hkeys.
  { unfold keys. rewrite <- list_fmap_compose.
    apply NoDup_fmap_2_strong; [exact Hinj | apply NoDup_seqZ]. }
  split_and!.
  - unfold eval, get_vocab, bind, vocab_size, attr, ret, get_piece_size. simpl. fold n.
    rewrite (foldM_vocab f) by exact Hconv. simpl.
    rewrite fold_set_fresh; [done | apply NoDup_seqZ | exact Hinj |].
    intros i _. apply not_elem_of_nil.
  - unfold len. rewrite length_fmap, length_seqZ. lia.
  - intros i Hi. exists (f i).
    assert (i ∈ seqZ 0 n) as Hin by (apply elem_of_seqZ; lia).
    split.
    + unfold eval. by rewrite (Hconv i Hin).
    + apply elem_get_Some; [exact Hkeys |]. apply list_elem_of_fmap. by exists i.
Qed.

Lemma get_vocab_ids_distinct_dense_witness :
  eval vocab_size toy_tokenizer = Ok 6
  /\ (exists vocab,
        eval get_vocab toy_tokenizer = Ok vocab
        /\ len vocab = 6
        /\ forall i, 0 <= i < 6 ->
             exists token, eval (convert_ids_to_tokens i) toy_tokenizer = Ok token
                           /\ get vocab token = Some i)
  /\ (forall i j token,
        eval (convert_ids_to_tokens i) toy_tokenizer = Ok token ->
        eval (convert_ids_to_tokens j) toy_tokenizer = Ok token ->
        i = j).
Proof.
  apply (get_vocab_ids_distinct_dense toy_spm toy_super_init "tokenizer.model" "<bos>" "<eos>" "<unk>" []
           toy_tokenizer).
  - reflexivity.
  - apply (bool_decide_unpack (NoDup (pieces (sp_model toy_tokenizer)))).
    vm_compute. exact I.
Defined.

(** C9 as stated fails: when two of the configured strings coincide the
    dictionary literal keeps one entry for both, and the id of the first is
    never inspected; a model without begin-sequence piece ([bos_id] is [-1])
    is then accepted. *)
Lemma init_ids_distinct_nonneg_counterexample :
  ~ (forall spm super_init vf bos eos unk kwargs t,
       __init__ spm super_init vf bos eos unk kwargs = Ok t ->
       (bos_id (sp_model t) <> eos_id (sp_model t)
        /\ bos_id (sp_model t) <> unk_id (sp_model t)
        /\ eos_id (sp_model t) <> unk_id (sp_model t))
       /\ 0 <= bos_id (sp_model t)
       /\ 0 <= eos_id (sp_model t)
       /\ 0 <= unk_id (sp_model t)).
Proof.
  intros Hclaim.
  destruct (Hclaim toy_spm toy_super_init "no_bos.model" "<s>" "<s>" "<unk>" []
              {| sp_model := toy_model_no_bos;
                 special_token_to_id := [("<s>", 1); ("<unk>", 0)];
                 special_id_to_token := [(1, "<s>"); (0, "<unk>")];
                 vocab_file := "no_bos.model";
                 bos_token := "<s>";
                 eos_token := "<s>";
                 unk_token := "<unk>" |} eq_refl) as (_ & Hbos & _).
  simpl in Hbos. lia.
Qed.

(** C9, amended: when the three configured strings are pairwise distinct
    and the model file loads, a constructor that succeeds has found the bos,
    eos and unk ids pairwise distinct and non-negative; if two of the ids
    coincide or one is negative it fails with [AssertionError]. *)
Theorem init_ids_distinct_nonneg spm super_init vf bos eos unk kwargs sp :
  spm vf = Ok sp ->
  bos <> eos -> bos <> unk -> eos <> unk ->
  (forall t, __init__ spm super_init vf bos eos unk kwargs = Ok t ->
             sp_model t = sp
             /\ (bos_id sp <> eos_id sp /\ bos_id sp <> unk_id sp
                 /\ eos_id sp <> unk_id sp)
             /\ 0 <= bos_id sp /\ 0 <= eos_id sp /\ 0 <= unk_id sp)
  /\ (bos_id sp = eos_id sp \/ bos_id sp = unk_id sp \/ eos_id sp = unk_id sp
      \/ bos_id sp < 0 \/ eos_id sp < 0 \/ unk_id sp < 0 ->
      __init__ spm super_init vf bos eos unk kwargs = Raise AssertionError).
Proof.
  intros Hload H1 H2 H3.
  assert (forall t, constructed spm vf bos eos unk t ->
             sp_model t = sp
             /\ (bos_id sp <> eos_id sp /\ bos_id sp <> unk_id sp
                 /\ eos_id sp <> unk_id sp)
             /\ 0 <= bos_id sp /\ 0 <= eos_id sp /\ 0 <= unk_id sp) as Hgood.
  { intros t Hc.
    assert (sp_model t = sp) as Hsp.
    { pose proof (ctd_loaded _ _ _ _ _ _ Hc). congruence. }
    pose proof (ctd_same_length _ _ _ _ _ _ Hc) as Hlen.
    pose proof (ctd_checked _ _ _ _ _ _ Hc) as Hall.
    rewrite (ctd_id_to_token _ _ _ _ _ _ Hc) in Hlen.
    apply invert_full in Hlen as [_ Hvals].
    rewrite (ctd_token_to_id _ _ _ _ _ _ Hc), Hsp in Hvals, Hall.
    rewrite (literal_distinct sp bos eos unk H1 H2 H3) in Hvals, Hall.
    unfold values in Hvals. simpl in Hvals.
    rewrite !NoDup_cons, !not_elem_of_cons in Hvals.
    rewrite !Forall_cons in Hall. simpl in Hall.
    split; [done |]. split; [|tauto].
    destruct Hvals as ((? & ? & _) & (? & _) & _). done. }
  split.
  - intros t Hc%init_Ok. by apply Hgood.
  - intros Hbad. apply (init_fails _ _ _ _ _ _ _ sp Hload).
    intros t Hc. specialize (Hgood t Hc). lia.
Qed.

Lemma init_ids_distinct_nonneg_witness :
  __init__ toy_spm toy_super_init "no_bos.model" "<bos>" "<eos>" "<unk>" [] = Raise AssertionError
  /\ 0 <= bos_id toy_model.
Proof.
  split.
  - apply (proj2 (init_ids_distinct_nonneg toy_spm toy_super_init "no_bos.model"
                    "<bos>" "<eos>" "<unk>" [] toy_model_no_bos eq_refl
                    ltac:(discriminate) ltac:(discriminate) ltac:(discriminate))).
    simpl. lia.
  - apply (proj1 (init_ids_distinct_nonneg toy_spm toy_super_init "tokenizer.model"
                    "<bos>" "<eos>" "<unk>" [] toy_model eq_refl
                    ltac:(discriminate) ltac:(discriminate) ltac:(discriminate))
             toy_tokenizer eq_refl).
Defined.

(** C10: on a constructed tokenizer every configured special string
    converts to an id that converts back to the string, and every id of
    [special_id_to_token] converts to a string that converts back to the
    id. *)
Theorem special_tokens_round_trip spm super_init vf bos eos unk kwargs t :
  __init__ spm super_init vf bos eos unk kwargs = Ok t ->
  (forall s, s = bos \/ s = eos \/ s = unk ->
     eval (do i <- _convert_token_to_id s ; _convert_id_to_token i) t = Ok s)
  /\ (forall i, i ∈ keys (special_id_to_token t) ->
        eval (do s <- _convert_id_to_token i ; _convert_token_to_id s) t = Ok i).
Proof.
  intros Hc%init_Ok. split.
  - intros s Hs. destruct (ctd_configured_get Hc s Hs) as [i Hi].
    unfold eval, bind. rewrite run_convert_token_to_id, Hi. simpl.
    rewrite run_convert_id_to_token. simpl.
    apply (ctd_inverse Hc) in Hi. by rewrite Hi.
  - intros i Hin. destruct (get (special_id_to_token t) i) as [s|] eqn:Hi.
    + unfold eval, bind. rewrite run_convert_id_to_token, Hi. simpl.
      rewrite run_convert_token_to_id. simpl.
      apply (ctd_inverse Hc) in Hi. by rewrite Hi.
    + by apply get_None in Hi.
Qed.

Lemma special_tokens_round_trip_witness :
  eval (do i <- _convert_token_to_id "<eos>" ; _convert_id_to_token i) toy_tokenizer
  = Ok "<eos>"
  /\ eval (do s <- _convert_id_to_token 1 ; _convert_token_to_id s) toy_tokenizer
     = Ok 1.
Proof.
  split.
  - apply (proj1 (special_tokens_round_trip toy_spm toy_super_init "tokenizer.model"
                    "<bos>" "<eos>" "<unk>" [] toy_tokenizer eq_refl) "<eos>").
    right. left. reflexivity.
  - apply (proj2 (special_tokens_round_trip toy_spm toy_super_init "tokenizer.model"
                    "<bos>" "<eos>" "<unk>" [] toy_tokenizer eq_refl) 1).
    apply list_elem_of_here.
Defined.

(** * Further properties of the adapter *)

(** ** More on inverting a dictionary *)

Section InvertMore.
Context {K V : Type} `{EqDecision V}.
Implicit Types (d : dict K V) (acc : dict V K).

Lemma fold_invert_NoDup d acc :
  NoDup (values d) ->
  (forall kv, kv ∈ d -> kv.2 ∉ keys acc) ->
  fold_left (fun acc kv => set kv.2 kv.1 acc) d acc = acc ++ (prod_swap <$> d).
Proof.
  revert acc. induction d as [|kv d IH]; intros acc Hnd Hfresh; simpl.
  - by rewrite app_nil_r.
  - unfold values in Hnd. simpl in Hnd. apply NoDup_cons in Hnd as [Hkv Hnd].
    rewrite set_fresh by (apply Hfresh, list_elem_of_here).
    rewrite IH; [by rewrite <- app_assoc | exact Hnd |].
    intros kv' Hin. unfold keys. rewrite fmap_app, not_elem_of_app. split.
    + apply Hfresh. by apply list_elem_of_further.
    + simpl. rewrite list_elem_of_singleton. intros Heq. apply Hkv.
      rewrite <- Heq. apply list_elem_of_fmap. by exists kv'.
Qed.

Lemma invert_NoDup d : NoDup (values d) -> invert d = prod_swap <$> d.
Proof.
  intros Hnd. unfold invert, items, empty.
  rewrite fold_invert_NoDup; [done | exact Hnd |].
  intros kv _. apply not_elem_of_nil.
Qed.
End InvertMore.

(** ** More on the constructor *)

Lemma get_literal sp bos eos unk s :
  get (special_tokens_literal sp bos eos unk) s =
  if decide (unk = s) then Some (unk_id sp)
  else if decide (eos = s) then Some (eos_id sp)
  else if decide (bos = s) then Some (bos_id sp)
  else None.
Proof. unfold special_tokens_literal. by rewrite !get_set. Qed.

(** The checks of the constructor are also sufficient, once the base-class
    constructor returns. *)
Lemma init_succeeds spm super_init vf bos eos unk kwargs sp :
  spm vf = Ok sp ->
  NoDup (values (special_tokens_literal sp bos eos unk)) ->
  Forall (fun item => piece_to_id sp item.1 = unk_id sp /\ 0 <= item.2)
         (special_tokens_literal sp bos eos unk) ->
  super_init bos eos unk kwargs = Ok tt ->
  __init__ spm super_init vf bos eos unk kwargs =
  Ok {| sp_model := sp;
        special_token_to_id := special_tokens_literal sp bos eos unk;
        special_id_to_token := prod_swap <$> special_tokens_literal sp bos eos unk;
        vocab_file := vf;
        bos_token := bos;
        eos_token := eos;
        unk_token := unk |}.
Proof.
  intros Hload Hnd Hall Hsuper. unfold __init__. rewrite Hload. simpl.
  rewrite (invert_NoDup _ Hnd).
  assert (py_assert (bool_decide
            (len (prod_swap <$> special_tokens_literal sp bos eos unk)
             = len (special_tokens_literal sp bos eos unk))) = Ok tt) as ->.
  { apply py_assert_Ok, bool_decide_eq_true. unfold len. by rewrite length_fmap. }
  simpl.
  assert (rfor (items (special_tokens_literal sp bos eos unk)) (check_special sp)
          = Ok tt) as ->.
  { apply rfor_Ok. eapply Forall_impl; [exact Hall |].
    intros item. apply check_special_Ok. }
  simpl. by rewrite Hsuper.
Qed.

Section ConstructedMore.
Context {spm : string -> Result SentencePieceProcessor} {vf bos eos unk : string}.
Context {t : LLaMaTokenizer} (Hc : constructed spm vf bos eos unk t).

Lemma ctd_swapped :
  special_id_to_token t = prod_swap <$> special_token_to_id t
  /\ NoDup (values (special_token_to_id t)).
Proof.
  pose proof (ctd_same_length _ _ _ _ _ _ Hc) as Hlen.
  rewrite (ctd_id_to_token _ _ _ _ _ _ Hc) in *. by apply invert_full.
Qed.

Lemma ctd_object :
  t = {| sp_model := sp_model t;
         special_token_to_id := special_tokens_literal (sp_model t) bos eos unk;
         special_id_to_token :=
           prod_swap <$> special_tokens_literal (sp_model t) bos eos unk;
         vocab_file := vf;
         bos_token := bos;
         eos_token := eos;
         unk_token := unk |}.
Proof.
  destruct ctd_swapped as [Hswap _].
  pose proof (ctd_token_to_id _ _ _ _ _ _ Hc) as Hlit.
  pose proof (ctd_vocab_file _ _ _ _ _ _ Hc) as Hvf.
  pose proof (ctd_bos _ _ _ _ _ _ Hc) as Hb.
  pose proof (ctd_eos _ _ _ _ _ _ Hc) as He.
  pose proof (ctd_unk _ _ _ _ _ _ Hc) as Hu.
  destruct t; simpl in *. rewrite Hlit in Hswap. congruence.
Qed.

Lemma ctd_get s :
  get (special_token_to_id t) s =
  if decide (unk = s) then Some (unk_id (sp_model t))
  else if decide (eos = s) then Some (eos_id (sp_model t))
  else if decide (bos = s) then Some (bos_id (sp_model t))
  else None.
Proof. rewrite (ctd_token_to_id _ _ _ _ _ _ Hc). apply get_literal. Qed.

Lemma ctd_unk_nonneg : 0 <= unk_id (sp_model t).
Proof.
  apply (ctd_special_unknown Hc unk). rewrite ctd_get. by rewrite decide_True.
Qed.

Lemma ctd_not_configured s :
  s <> bos -> s <> eos -> s <> unk -> get (special_token_to_id t) s = None.
Proof.
  intros H1 H2 H3. apply get_None. rewrite (ctd_configured Hc). tauto.
Qed.
End ConstructedMore.

(** ** When the constructor succeeds *)

(** X1: with three pairwise distinct special strings and a model file that
    loads, the constructor returns an object exactly when the three ids are
    pairwise distinct and non-negative, the vocabulary maps each of the three
    strings to the unknown id, and the base-class constructor returns; the
    object it returns then holds the three-entry registry and its swap. *)
Theorem init_succeeds_iff_distinct spm super_init vf bos eos unk kwargs sp :
  spm vf = Ok sp ->
  bos <> eos -> bos <> unk -> eos <> unk ->
  ((exists t, __init__ spm super_init vf bos eos unk kwargs = Ok t)
   <-> (bos_id sp <> eos_id sp /\ bos_id sp <> unk_id sp /\ eos_id sp <> unk_id sp)
       /\ (0 <= bos_id sp /\ 0 <= eos_id sp /\ 0 <= unk_id sp)
       /\ (piece_to_id sp bos = unk_id sp /\ piece_to_id sp eos = unk_id sp
           /\ piece_to_id sp unk = unk_id sp)
       /\ super_init bos eos unk kwargs = Ok tt)
  /\ (forall t, __init__ spm super_init vf bos eos unk kwargs = Ok t ->
         t = {| sp_model := sp;
                special_token_to_id :=
                  [(bos, bos_id sp); (eos, eos_id sp); (unk, unk_id sp)];
                special_id_to_token :=
                  [(bos_id sp, bos); (eos_id sp, eos); (unk_id sp, unk)];
                vocab_file := vf;
                bos_token := bos;
                eos_token := eos;
                unk_token := unk |}).
Proof.
  intros Hload H1 H2 H3.
  assert (forall t, __init__ spm super_init vf bos eos unk kwargs = Ok t ->
            sp_model t = sp) as Hsp.
  { intros t Hc%init_Ok. pose proof (ctd_loaded _ _ _ _ _ _ Hc). congruence. }
  split; [split |].
  - intros [t Hinit]. pose proof (init_Ok_super _ _ _ _ _ _ _ _ Hinit) as Hsuper.
    pose proof (Hsp t Hinit) as <-. apply init_Ok in Hinit as Hc.
    destruct (ctd_swapped Hc) as [_ Hvals].
    pose proof (ctd_checked _ _ _ _ _ _ Hc) as Hall.
    rewrite (ctd_token_to_id _ _ _ _ _ _ Hc) in Hvals, Hall.
    rewrite (literal_distinct _ bos eos unk H1 H2 H3) in Hvals, Hall.
    unfold values in Hvals. simpl in Hvals.
    rewrite !NoDup_cons, !not_elem_of_cons in Hvals.
    rewrite !Forall_cons in Hall. simpl in Hall.
    destruct Hvals as ((? & ? & _) & (? & _) & _). tauto.
  - intros ((D1 & D2 & D3) & (N1 & N2 & N3) & (P1 & P2 & P3) & Hsuper).
    eexists. apply (init_succeeds spm super_init vf bos eos unk kwargs sp Hload);
      [| |exact Hsuper]; rewrite (literal_distinct sp bos eos unk H1 H2 H3).
    + unfold values. simpl. rewrite !NoDup_cons, !not_elem_of_cons.
      split_and!; first [done | apply not_elem_of_nil | apply NoDup_nil_2].
    + rewrite !Forall_cons. simpl. split_and!; first [done | apply Forall_nil_2].
  - intros t Hinit. pose proof (Hsp t Hinit) as <-. apply init_Ok in Hinit as Hc.
    rewrite (ctd_object Hc) at 1.
    by rewrite (literal_distinct _ bos eos unk H1 H2 H3).
Qed.

Lemma init_succeeds_iff_distinct_witness :
  (exists t, __init__ toy_spm toy_super_init "tokenizer.model"
               "<bos>" "<eos>" "<unk>" [] = Ok t)
  /\ ~ (exists t, __init__ toy_spm strict_super_init "tokenizer.model"
                    "<bos>" "<eos>" "<unk>" [("model_max_length", PyStr "512")]
                  = Ok t).
Proof.
  split.
  - apply (proj2 (proj1 (init_succeeds_iff_distinct toy_spm toy_super_init
                           "tokenizer.model" "<bos>" "<eos>" "<unk>" [] toy_model
                           eq_refl ltac:(discriminate) ltac:(discriminate)
                           ltac:(discriminate)))).
    simpl. split_and!; try lia; reflexivity.
  - intros Hex.
    apply (proj1 (proj1 (init_succeeds_iff_distinct toy_spm strict_super_init
                           "tokenizer.model" "<bos>" "<eos>" "<unk>"
                           [("model_max_length", PyStr "512")] toy_model
                           eq_refl ltac:(discriminate) ltac:(discriminate)
                           ltac:(discriminate)))) in Hex.
    destruct Hex as (_ & _ & _ & Hsuper). discriminate Hsuper.
Defined.

(** X3: the registry of a constructed tokenizer: its keys are exactly the
    configured strings, no key and no id occurs twice, every id is
    non-negative, and [special_id_to_token] is [special_token_to_id] with
    every item swapped, in the same order. *)
Theorem registry_invariant spm super_init vf bos eos unk kwargs t :
  __init__ spm super_init vf bos eos unk kwargs = Ok t ->
  (forall s, s ∈ keys (special_token_to_id t) <-> s = bos \/ s = eos \/ s = unk)
  /\ NoDup (keys (special_token_to_id t))
  /\ NoDup (values (special_token_to_id t))
  /\ (forall i, i ∈ values (special_token_to_id t) -> 0 <= i)
  /\ special_id_to_token t = prod_swap <$> special_token_to_id t.
Proof.
  intros Hc%init_Ok. destruct (ctd_swapped Hc) as [Hswap Hvals].
  split_and!; try done.
  - apply (ctd_configured Hc).
  - apply (ctd_NoDup_keys Hc).
  - intros i (item & -> & Hin)%list_elem_of_fmap.
    pose proof (ctd_checked _ _ _ _ _ _ Hc) as Hall.
    rewrite Forall_forall in Hall. apply (Hall item Hin).
Qed.

Lemma registry_invariant_witness :
  __init__ toy_spm toy_super_init "no_bos.model" "<s>" "<s>" "<unk>" [] = Ok toy_tokenizer_shared
  /\ special_id_to_token toy_tokenizer_shared
     = prod_swap <$> special_token_to_id toy_tokenizer_shared.
Proof.
  split; [reflexivity |].
  apply (registry_invariant toy_spm toy_super_init "no_bos.model" "<s>" "<s>" "<unk>" []
           toy_tokenizer_shared eq_refl).
Defined.

(** X4: which id a configured string gets when roles share a string: a
    later entry of the dictionary literal replaces an earlier one with the
    same key.  The unk string converts to the model's unk id; the eos string
    converts to the unk id if it is also the unk string and to the eos id
    otherwise; the bos string converts to the unk id if it is also the unk
    string, else to the eos id if it is also the eos string, else to the bos
    id. *)
Theorem special_roles_precedence spm super_init vf bos eos unk kwargs t :
  __init__ spm super_init vf bos eos unk kwargs = Ok t ->
  eval (_convert_token_to_id unk) t = Ok (unk_id (sp_model t))
  /\ eval (_convert_token_to_id eos) t =
     Ok (if decide (eos = unk) then unk_id (sp_model t) else eos_id (sp_model t))
  /\ eval (_convert_token_to_id bos) t =
     Ok (if decide (bos = unk) then unk_id (sp_model t)
         else if decide (bos = eos) then eos_id (sp_model t)
         else bos_id (sp_model t)).
Proof.
  intros Hc%init_Ok. unfold eval. rewrite !run_convert_token_to_id. simpl.
  rewrite !(ctd_get Hc). split_and!.
  - by rewrite decide_True.
  - repeat case_decide; simpl; congruence.
  - repeat case_decide; simpl; congruence.
Qed.

Lemma special_roles_precedence_witness :
  eval (_convert_token_to_id "<s>") toy_tokenizer_shared = Ok 1
  /\ bos_id (sp_model toy_tokenizer_shared) = -1.
Proof.
  split; [|reflexivity].
  apply (special_roles_precedence toy_spm toy_super_init "no_bos.model"
           "<s>" "<s>" "<unk>" [] toy_tokenizer_shared eq_refl).
Defined.

(** ** Conversions composed *)

Lemma lookup_id_Some sp piece i :
  lookup_id sp piece = Some i -> 0 <= i < get_piece_size sp.
Proof.
  unfold lookup_id, get_piece_size.
  destruct (list_find _ _) as [[n p]|] eqn:Hf; [|done].
  intros [= <-]. apply list_find_Some in Hf as (Hn%lookup_lt_Some & _). lia.
Qed.

(** X5: on a constructed tokenizer [_convert_token_to_id] returns, for every
    string, a non-negative id that is a position of the vocabulary or an id
    of the registry; converting that id back never raises. *)
Theorem converted_id_is_decodable spm super_init vf bos eos unk kwargs t s :
  __init__ spm super_init vf bos eos unk kwargs = Ok t ->
  exists i token,
    eval (_convert_token_to_id s) t = Ok i
    /\ 0 <= i
    /\ (i < get_piece_size (sp_model t) \/ i ∈ keys (special_id_to_token t))
    /\ eval (_convert_id_to_token i) t = Ok token.
Proof.
  intros Hc%init_Ok. unfold eval. rewrite run_convert_token_to_id. simpl.
  assert (forall i, 0 <= i ->
            i < get_piece_size (sp_model t) \/ i ∈ keys (special_id_to_token t) ->
            exists token, (_convert_id_to_token i t).1 = Ok token) as Hback.
  { intros i Hpos [Hlt|Hreg].
    - destruct (convert_in_range t i) as [token ->]; [lia | by exists token].
    - rewrite run_convert_id_to_token. simpl.
      destruct (get (special_id_to_token t) i) as [token|] eqn:Hi; [by exists token |].
      by apply get_None in Hi. }
  assert (unk_id (sp_model t) ∈ keys (special_id_to_token t)) as Hunk.
  { destruct (decide (unk_id (sp_model t) ∈ keys (special_id_to_token t)));
      [done |].
    apply get_None in n. by rewrite (ctd_unk_registered Hc) in n. }
  set (i := default (piece_to_id (sp_model t) s) (get (special_token_to_id t) s)).
  assert (0 <= i /\ (i < get_piece_size (sp_model t)
                     \/ i ∈ keys (special_id_to_token t))) as [Hpos Hwhere].
  { unfold i. destruct (get (special_token_to_id t) s) as [j|] eqn:Hj; simpl.
    - split; [apply (ctd_special_unknown Hc s j Hj) |]. right.
      apply (ctd_inverse Hc) in Hj.
      destruct (decide (j ∈ keys (special_id_to_token t))) as [|Hn]; [done |].
      apply get_None in Hn. congruence.
    - unfold piece_to_id. destruct (lookup_id (sp_model t) s) as [j|] eqn:Hl; simpl.
      + apply lookup_id_Some in Hl. split; [lia | left; lia].
      + split; [apply (ctd_unk_nonneg Hc) | by right]. }
  destruct (Hback i Hpos Hwhere) as [token Htok].
  exists i, token. done.
Qed.

Lemma converted_id_is_decodable_witness :
  exists i token,
    eval (_convert_token_to_id "zz") toy_tokenizer = Ok i
    /\ 0 <= i
    /\ (i < get_piece_size (sp_model toy_tokenizer)
        \/ i ∈ keys (special_id_to_token toy_tokenizer))
    /\ eval (_convert_id_to_token i) toy_tokenizer = Ok token.
Proof.
  apply (converted_id_is_decodable toy_spm toy_super_init "tokenizer.model" "<bos>" "<eos>" "<unk>" []
           toy_tokenizer "zz" eq_refl).
Defined.

Section ConstructedBack.
Context {spm : string -> Result SentencePieceProcessor} {vf bos eos unk : string}.
Context {t : LLaMaTokenizer} (Hc : constructed spm vf bos eos unk t).
Context (Hnd : NoDup (pieces (sp_model t))).

(** Whatever token an id converts to, the token converts back to the id. *)
Lemma ctd_token_back i token :
  eval (_convert_id_to_token i) t = Ok token ->
  eval (_convert_token_to_id token) t = Ok i.
Proof.
  unfold eval. rewrite run_convert_id_to_token, run_convert_token_to_id. simpl.
  destruct (get (special_id_to_token t) i) as [s|] eqn:Hi.
  - intros [= ->]. apply (ctd_inverse Hc) in Hi. by rewrite Hi.
  - intros Hp%IdToPiece_Ok.
    destruct (get (special_token_to_id t) token) as [j|] eqn:Hj; simpl.
    + exfalso. apply (ctd_special_unknown Hc) in Hj as [Hunk _].
      rewrite (piece_to_id_of_piece _ _ _ Hnd Hp) in Hunk. subst i.
      by rewrite (ctd_unk_registered Hc) in Hi.
    + by rewrite (piece_to_id_of_piece _ _ _ Hnd Hp).
Qed.
End ConstructedBack.

(** X6: ids round-trip: on a constructed tokenizer over a vocabulary without
    repeated pieces, every id of [0, vocab_size) converts to a token that
    converts back to the same id. *)
Theorem id_round_trip spm super_init vf bos eos unk kwargs t i :
  __init__ spm super_init vf bos eos unk kwargs = Ok t ->
  NoDup (pieces (sp_model t)) ->
  0 <= i < get_piece_size (sp_model t) ->
  eval (do token <- _convert_id_to_token i ; _convert_token_to_id token) t = Ok i.
Proof.
  intros Hc%init_Ok Hnd Hr.
  destruct (convert_in_range t i Hr) as [token Htok].
  pose proof (ctd_token_back Hc Hnd i token) as Hback.
  unfold eval, bind in *. rewrite Htok in *. simpl in *. by apply Hback.
Qed.

Lemma id_round_trip_witness :
  eval (do token <- _convert_id_to_token 5 ; _convert_token_to_id token) toy_tokenizer
  = Ok 5.
Proof.
  apply (id_round_trip toy_spm toy_super_init "tokenizer.model" "<bos>" "<eos>" "<unk>" []
           toy_tokenizer 5 eq_refl).
  - apply (bool_decide_unpack (NoDup (pieces (sp_model toy_tokenizer)))).
    vm_compute. exact I.
  - unfold get_piece_size. simpl. lia.
Defined.

(** X7: a string that is neither configured as special token nor a trained
    piece converts to the unknown id, which converts back to the configured
    unk string. *)
Theorem unknown_string_decodes_to_unk spm super_init vf bos eos unk kwargs t s :
  __init__ spm super_init vf bos eos unk kwargs = Ok t ->
  s <> bos -> s <> eos -> s <> unk ->
  s ∉ pieces (sp_model t) ->
  eval (do i <- _convert_token_to_id s ; _convert_id_to_token i) t = Ok unk.
Proof.
  intros Hc%init_Ok H1 H2 H3 Hvoc. unfold eval, bind.
  rewrite run_convert_token_to_id, (ctd_not_configured Hc s H1 H2 H3). simpl.
  rewrite (piece_to_id_unknown _ _ Hvoc), run_convert_id_to_token. simpl.
  by rewrite (ctd_unk_registered Hc).
Qed.

Lemma unknown_string_decodes_to_unk_witness :
  eval (do i <- _convert_token_to_id "zz" ; _convert_id_to_token i) toy_tokenizer
  = Ok "<unk>".
Proof.
  apply (unknown_string_decodes_to_unk toy_spm toy_super_init "tokenizer.model"
           "<bos>" "<eos>" "<unk>" [] toy_tokenizer "zz" eq_refl);
    try discriminate.
  intros Hin. apply list_elem_of_In in Hin. simpl in Hin.
  repeat (destruct Hin as [Hin|Hin]; [discriminate Hin |]). exact Hin.
Defined.

(** X8: a trained piece that is not a configured string converts to its
    position; converting back returns the piece when that id is not in the
    registry, and otherwise the registered string, which is a different
    string: the piece is hidden behind the special token. *)
Theorem piece_round_trip_or_hidden spm super_init vf bos eos unk kwargs t i p :
  __init__ spm super_init vf bos eos unk kwargs = Ok t ->
  NoDup (pieces (sp_model t)) ->
  lookup_piece (sp_model t) i = Some p ->
  p <> bos -> p <> eos -> p <> unk ->
  eval (_convert_token_to_id p) t = Ok i
  /\ match get (special_id_to_token t) i with
     | None =>
         eval (do j <- _convert_token_to_id p ; _convert_id_to_token j) t = Ok p
     | Some special =>
         eval (do j <- _convert_token_to_id p ; _convert_id_to_token j) t = Ok special
         /\ special <> p
     end.
Proof.
  intros Hc%init_Ok Hnd Hp H1 H2 H3. unfold eval, bind.
  rewrite run_convert_token_to_id, (ctd_not_configured Hc p H1 H2 H3). simpl.
  rewrite (piece_to_id_of_piece _ _ _ Hnd Hp). split; [done |].
  rewrite run_convert_id_to_token. simpl.
  destruct (get (special_id_to_token t) i) as [special|] eqn:Hi.
  - split; [done |]. intros ->. apply (ctd_inverse Hc) in Hi.
    by rewrite (ctd_not_configured Hc p H1 H2 H3) in Hi.
  - by apply IdToPiece_Ok in Hp as ->.
Qed.

Lemma piece_round_trip_or_hidden_witness :
  (eval (_convert_token_to_id "<s>") toy_tokenizer = Ok 1
   /\ eval (do j <- _convert_token_to_id "<s>" ; _convert_id_to_token j) toy_tokenizer
      = Ok "<bos>" /\ "<bos>" <> "<s>")
  /\ (eval (_convert_token_to_id "ab") toy_tokenizer = Ok 5
      /\ eval (do j <- _convert_token_to_id "ab" ; _convert_id_to_token j) toy_tokenizer
         = Ok "ab").
Proof.
  assert (NoDup (pieces (sp_model toy_tokenizer))) as Hnd.
  { apply (bool_decide_unpack (NoDup (pieces (sp_model toy_tokenizer)))).
    vm_compute. exact I. }
  split.
  - apply (piece_round_trip_or_hidden toy_spm toy_super_init "tokenizer.model"
             "<bos>" "<eos>" "<unk>" [] toy_tokenizer 1 "<s>" eq_refl Hnd eq_refl);
      discriminate.
  - apply (piece_round_trip_or_hidden toy_spm toy_super_init "tokenizer.model"
             "<bos>" "<eos>" "<unk>" [] toy_tokenizer 5 "ab" eq_refl Hnd eq_refl);
      discriminate.
Defined.

(** ** More on [get_vocab] *)

Section FoldSet.
Context {K V : Type} `{EqDecision K} (f : V -> K).
Implicit Types (l : list V) (acc : dict K V).

Local Abbreviation vocab_step := (fun (vocab : dict K V) (i : V) => set (f i) i vocab).

Lemma length_fold_set_le l acc :
  (length (fold_left vocab_step l acc) <= length acc + length l)%nat.
Proof.
  revert acc. induction l as [|x l IH]; intros acc; simpl; [lia |].
  specialize (IH (set (f x) x acc)).
  pose proof (length_set_le acc (f x) x). lia.
Qed.

(** An entry of the result is an entry of the start that no element
    overwrote, or the last element of the list that carries its key. *)
Lemma fold_set_last l acc k v :
  get (fold_left vocab_step l acc) k = Some v ->
  (get acc k = Some v /\ forall x, x ∈ l -> f x <> k)
  \/ (exists l1 l2, l = l1 ++ v :: l2 /\ f v = k /\ forall x, x ∈ l2 -> f x <> k).
Proof.
  revert acc. induction l as [|x l IH]; intros acc; simpl.
  - intros Hg. left. split; [done |]. intros x Hin. by apply elem_of_nil in Hin.
  - intros [[Hg Hl]|(l1 & l2 & -> & Hk & Hl)]%IH.
    + rewrite get_set in Hg. destruct (decide (f x = k)) as [Hx|Hx].
      * injection Hg as <-. right. by exists [], l.
      * left. split; [done |]. intros y [->|Hin]%elem_of_cons; auto.
    + right. by exists (x :: l1), l2.
Qed.
End FoldSet.

Lemma seqZ_after n l1 i l2 j :
  seqZ 0 n = l1 ++ i :: l2 -> j ∈ seqZ 0 n -> i < j -> j ∈ l2.
Proof.
  intros Heq Hj Hlt.
  assert (i = Z.of_nat (length l1)) as Hi.
  { pose proof (list_lookup_middle l1 l2 i (length l1) eq_refl) as Hm.
    rewrite <- Heq in Hm. apply lookup_seqZ in Hm. lia. }
  rewrite Heq in Hj. apply elem_of_app in Hj as [Hj|Hj].
  - apply list_elem_of_lookup_1 in Hj as [k Hk].
    pose proof (lookup_lt_Some _ _ _ Hk) as Hklt.
    apply (lookup_app_l_Some _ (i :: l2)) in Hk. rewrite <- Heq in Hk.
    apply lookup_seqZ in Hk. lia.
  - apply elem_of_cons in Hj as [->|Hj]; [lia | done].
Qed.

(** [get_vocab] on any object: it runs the conversion on each id below
    [vocab_size], where the conversion cannot raise. *)
Lemma get_vocab_run t :
  exists f : Z -> string,
    (forall i, i ∈ seqZ 0 (get_piece_size (sp_model t)) ->
               convert_ids_to_tokens i t = (Ok (f i), t))
    /\ get_vocab t =
       (Ok (fold_left (fun vocab i => set (f i) i vocab)
                      (seqZ 0 (get_piece_size (sp_model t))) empty), t).
Proof.
  exists (fun i => match eval (convert_ids_to_tokens i) t with
                   | Ok token => token
                   | Raise _ => ""
                   end).
  assert (forall i, i ∈ seqZ 0 (get_piece_size (sp_model t)) ->
            convert_ids_to_tokens i t =
            (Ok (match eval (convert_ids_to_tokens i) t with
                 | Ok token => token
                 | Raise _ => ""
                 end), t)) as Hconv.
  { intros i Hi%elem_of_seqZ.
    destruct (convert_in_range t i) as [token Htok]; [lia |].
    unfold eval, convert_ids_to_tokens. by rewrite Htok. }
  split; [exact Hconv |].
  unfold get_vocab, bind, vocab_size, attr, ret. simpl.
  by rewrite (foldM_vocab _ _ _ _ Hconv).
Qed.

Lemma get_vocab_sound t vocab token i :
  eval get_vocab t = Ok vocab ->
  get vocab token = Some i ->
  0 <= i < get_piece_size (sp_model t)
  /\ eval (convert_ids_to_tokens i) t = Ok token.
Proof.
  destruct (get_vocab_run t) as (f & Hconv & Hrun).
  unfold eval. rewrite Hrun. simpl. intros [= <-] Hg.
  apply fold_set_last in Hg as [[Hg _]|(l1 & l2 & Heq & Hk & _)]; [done |].
  assert (i ∈ seqZ 0 (get_piece_size (sp_model t))) as Hin.
  { rewrite Heq. apply elem_of_app. right. apply list_elem_of_here. }
  rewrite (Hconv i Hin). simpl. split; [|by rewrite Hk].
  apply elem_of_seqZ in Hin. lia.
Qed.

(** X9: [get_vocab] never raises, on any object.  The dictionary it returns
    has at most [vocab_size] entries; each entry pairs an id of
    [0, vocab_size) with the token that id converts to, and when several ids
    convert to one token the entry keeps the largest of them. *)
Theorem get_vocab_entries t :
  exists vocab,
    eval get_vocab t = Ok vocab
    /\ len vocab <= get_piece_size (sp_model t)
    /\ forall token i, get vocab token = Some i ->
         0 <= i < get_piece_size (sp_model t)
         /\ eval (convert_ids_to_tokens i) t = Ok token
         /\ forall j, i < j < get_piece_size (sp_model t) ->
                      eval (convert_ids_to_tokens j) t <> Ok token.
Proof.
  destruct (get_vocab_run t) as (f & Hconv & Hrun).
  eexists. split; [unfold eval; by rewrite Hrun |]. split.
  - unfold len. pose proof (length_fold_set_le f
      (seqZ 0 (get_piece_size (sp_model t))) empty) as Hle.
    rewrite length_seqZ in Hle. simpl in Hle. unfold get_piece_size in *. lia.
  - intros token i Hg.
    edestruct (get_vocab_sound t) as [Hr Hi];
      [unfold eval; rewrite Hrun; reflexivity | exact Hg |].
    split; [done |]. split; [done |].
    intros j Hj.
    apply fold_set_last in Hg as [[Hg _]|(l1 & l2 & Heq & Hk & Hlast)]; [done |].
    assert (j ∈ seqZ 0 (get_piece_size (sp_model t))) as Hin
      by (apply elem_of_seqZ; lia).
    pose proof (seqZ_after _ _ _ _ j Heq Hin (proj1 Hj)) as Hl2.
    unfold eval. rewrite (Hconv j Hin). simpl.
    intros [= Hfj]. by apply (Hlast j Hl2).
Qed.

(** X10: [get_vocab] agrees with [_convert_token_to_id]: on a constructed
    tokenizer over a vocabulary without repeated pieces, every token listed
    by [get_vocab] converts to the id listed with it. *)
Theorem get_vocab_agrees_with_convert spm super_init vf bos eos unk kwargs t vocab token i :
  __init__ spm super_init vf bos eos unk kwargs = Ok t ->
  NoDup (pieces (sp_model t)) ->
  eval get_vocab t = Ok vocab ->
  get vocab token = Some i ->
  eval (_convert_token_to_id token) t = Ok i.
Proof.
  intros Hc%init_Ok Hnd Hv Hg.
  destruct (get_vocab_sound t vocab token i Hv Hg) as [_ Hi].
  by apply (ctd_token_back Hc Hnd).
Qed.

Lemma get_vocab_agrees_with_convert_witness :
  eval (_convert_token_to_id "<eos>") toy_tokenizer = Ok 2.
Proof.
  apply (get_vocab_agrees_with_convert toy_spm toy_super_init "tokenizer.model"
           "<bos>" "<eos>" "<unk>" [] toy_tokenizer
           [("<unk>", 0); ("<bos>", 1); ("<eos>", 2); ("a", 3); ("b", 4); ("ab", 5)]
           "<eos>" 2 eq_refl).
  - apply (bool_decide_unpack (NoDup (pieces (sp_model toy_tokenizer)))).
    vm_compute. exact I.
  - reflexivity.
  - reflexivity.
Defined.

(** X11: the dictionary of [get_vocab] is in id order: on a constructed
    tokenizer over a vocabulary without repeated pieces its values are
    [0, 1, ..., vocab_size - 1] in this order. *)
Theorem get_vocab_in_id_order spm super_init vf bos eos unk kwargs t vocab :
  __init__ spm super_init vf bos eos unk kwargs = Ok t ->
  NoDup (pieces (sp_model t)) ->
  eval get_vocab t = Ok vocab ->
  values vocab = seqZ 0 (get_piece_size (sp_model t)).
Proof.
  intros Hc%init_Ok Hnd. destruct (get_vocab_run t) as (f & Hconv & Hrun).
  unfold eval. rewrite Hrun. simpl. intros [= <-].
  rewrite fold_set_fresh.
  - unfold values, empty. simpl. rewrite <- list_fmap_compose. apply list_fmap_id.
  - apply NoDup_seqZ.
  - intros i j Hi Hj Heq. apply (ctd_tokens_distinct Hc Hnd i j (f i)).
    + unfold eval. fold (convert_ids_to_tokens i). by rewrite (Hconv i Hi).
    + unfold eval. fold (convert_ids_to_tokens j). by rewrite (Hconv j Hj), Heq.
  - intros i _. apply not_elem_of_nil.
Qed.

Lemma get_vocab_in_id_order_witness :
  values [("<unk>", 0); ("<bos>", 1); ("<eos>", 2); ("a", 3); ("b", 4); ("ab", 5)]
  = seqZ 0 (get_piece_size (sp_model toy_tokenizer)).
Proof.
  apply (get_vocab_in_id_order toy_spm toy_super_init "tokenizer.model" "<bos>" "<eos>" "<unk>" []
           toy_tokenizer _ eq_refl).
  - apply (bool_decide_unpack (NoDup (pieces (sp_model toy_tokenizer)))).
    vm_compute. exact I.
  - reflexivity.
Defined.

(** ** Ids that convert, and special strings that are pieces *)

(** X12: [_convert_id_to_token] returns a token, on any object, for every id
    that is in the registry or in [0, vocab_size); the registry is asked
    first, so a registered id needs no place in the vocabulary. *)
Theorem convert_id_defined t i :
  i ∈ keys (special_id_to_token t) \/ 0 <= i < get_piece_size (sp_model t) ->
  exists token, eval (_convert_id_to_token i) t = Ok token.
Proof.
  intros [Hreg|Hr].
  - unfold eval. rewrite run_convert_id_to_token. simpl.
    destruct (get (special_id_to_token t) i) as [token|] eqn:Hi; [by exists token |].
    by apply get_None in Hi.
  - destruct (convert_in_range t i Hr) as [token Htok].
    exists token. unfold eval. by rewrite Htok.
Qed.

Lemma convert_id_defined_witness :
  exists token, eval (_convert_id_to_token 4) toy_tokenizer = Ok token.
Proof.
  apply (convert_id_defined toy_tokenizer 4).
  right. unfold get_piece_size. simpl. lia.
Defined.

Lemma lookup_id_elem sp piece :
  piece ∈ pieces sp ->
  exists n, lookup_id sp piece = Some (Z.of_nat n) /\ pieces sp !! n = Some piece.
Proof.
  intros Hin. unfold lookup_id.
  destruct (list_find _ _) as [[n p]|] eqn:Hf.
  - apply list_find_Some in Hf as (Hn & -> & _). by exists n.
  - apply list_find_None in Hf. rewrite Forall_forall in Hf.
    by destruct (Hf piece Hin).
Qed.

(** X13: the constructor lets a configured special string be a trained
    piece in one case only: when it is the piece stored at the unknown id.
    Any other trained piece used as bos, eos or unk string makes the
    constructor fail. *)
Theorem configured_piece_is_unk_piece spm super_init vf bos eos unk kwargs t s :
  __init__ spm super_init vf bos eos unk kwargs = Ok t ->
  s = bos \/ s = eos \/ s = unk ->
  s ∈ pieces (sp_model t) ->
  lookup_piece (sp_model t) (unk_id (sp_model t)) = Some s.
Proof.
  intros Hc%init_Ok Hs Hin.
  destruct (ctd_configured_get Hc s Hs) as [i Hi].
  apply (ctd_special_unknown Hc) in Hi as [Hunk _].
  destruct (lookup_id_elem _ _ Hin) as (n & Hl & Hn).
  unfold piece_to_id in Hunk. rewrite Hl in Hunk. simpl in Hunk.
  rewrite <- Hunk. apply lookup_piece_Some. split; [lia |].
  by rewrite Nat2Z.id.
Qed.

Lemma configured_piece_is_unk_piece_witness :
  lookup_piece (sp_model toy_tokenizer) (unk_id (sp_model toy_tokenizer))
  = Some "<unk>".
Proof.
  apply (configured_piece_is_unk_piece toy_spm toy_super_init "tokenizer.model"
           "<bos>" "<eos>" "<unk>" [] toy_tokenizer "<unk>" eq_refl).
  - right. right. reflexivity.
  - apply list_elem_of_here.
Defined.
